(** * A shallow embedding of the Strawberry book-store example (src/main.py)

    The program declares a [Book] type, an in-memory [database] list, a
    [get_books] resolver, the [Query], [Mutation] and [Subscription] root
    types and the [schema] built from them.  The GraphQL execution engine
    that runs these resolvers is the imported framework (Strawberry over
    graphql-core); it is modelled here after the validator, executor and
    subscription engine the specification describes (sections 4.3 to 4.5)
    and graphql-core implements: a document is validated against the schema
    before any resolver runs, fields sharing a response key are merged, root
    fields are threaded one at a time through the store, values are completed
    against their declared non-null types with errors raised up to the
    nearest nullable field, and one executor pass runs per subscription
    event. *)

From Stdlib Require Import String List ZArith Lia.
Import ListNotations.
Open Scope string_scope.
Set Warnings "-register-all".

(** ** Data model *)

(** [@strawberry.type class Book: title: str; author: str] *)
Record Book := mkBook { title : string; author : string }.

(** The store the resolvers read and append to: a Python list of books. *)
Definition store := list Book.

(** [database = [Book(...), Book(...)]] *)
Definition database : store :=
  [ mkBook "The Great Gatsby" "F. Scott Fitzgerald";
    mkBook "Gatsby 2" "F. Scott Fitzgerald" ].

(** Python values a resolver can return; [VNone] is [None], the root value
    of a query or mutation. *)
Inductive value :=
| VNone
| VStr (s : string)
| VInt (z : Z)
| VBook (b : Book)
| VList (vs : list value).

(** Literal argument values of a query document: a GraphQL string literal,
    or an integer literal as written (any size: the validator checks the
    range). *)
Inductive arg_value :=
| AStr (s : string)
| AInt (z : Z).

(** The result tree (a JSON value). *)
Inductive json :=
| JNull
| JStr (s : string)
| JInt (z : Z)
| JList (js : list json)
| JObj (kvs : list (string * json)).

(** A field of a selection set: optional alias, name, literal arguments,
    sub-selection. *)
Inductive selection :=
| Field (alias : option string) (name : string) (args : list (string * arg_value))
    (sub : list selection).

(** The key of a field in the result tree: its alias, else its name. *)
Definition response_key (alias : option string) (name : string) : string :=
  match alias with
  | Some a => a
  | None => name
  end.

Inductive op_kind := OQuery | OMutation | OSubscription.

Record operation := mkOperation { op_type : op_kind; selections : list selection }.

(** The response envelope [{data, errors}]. *)
Record response := mkResponse { data : json; errors : list string }.

(** ** The resolvers of src/main.py *)

(** [def get_books(): return database] *)
Definition get_books (db : store) : store := db.

(** [Mutation.add_book]: builds the book, [database.append(book)], returns it. *)
Definition add_book (title_ author_ : string) (db : store) : Book * store :=
  let book := mkBook title_ author_ in
  (book, (db ++ [book])%list).

(** [Subscription.count]: the async generator
    [for i in range(target): yield i; await asyncio.sleep(0.5)].
    [GenRunning i target] is the generator about to test [i < target];
    [GenFinished] is a generator that returned or was closed. *)
Inductive gen_state :=
| GenRunning (i target : Z)
| GenFinished.

Definition count (target : Z) : gen_state := GenRunning 0 target.

(** [await gen.__anext__()]: [Some i] for a yielded value, [None] for
    [StopAsyncIteration]. *)
Definition anext (g : gen_state) : option Z * gen_state :=
  match g with
  | GenRunning i target =>
      if Z.ltb i target then (Some i, GenRunning (i + 1) target)
      else (None, GenFinished)
  | GenFinished => (None, GenFinished)
  end.

(** [await gen.aclose()]: a closed generator raises [StopAsyncIteration]
    on every later [__anext__]. *)
Definition aclose (g : gen_state) : gen_state := GenFinished.

(** ** The schema registry *)

(** GraphQL types: the two scalars of the schema, object types by name,
    lists, and the non-null wrapper [T!]. *)
Inductive gql_type :=
| TString
| TInt
| TObj (type_name : string)
| TListOf (t : gql_type)
| TNonNull (t : gql_type).

(** The resolver bound to a field: the three resolvers of the program and
    Strawberry's default attribute resolver [getattr(parent, name)]. *)
Inductive resolver :=
| RGetBooks
| RAddBook
| RCount
| RAttr (attr : string).

Record field_def := mkField {
  fd_name : string;
  fd_type : gql_type;
  fd_args : list (string * gql_type);
  fd_resolver : resolver
}.

Record type_def := mkType { td_name : string; td_fields : list field_def }.

Definition schema_registry := list type_def.

(** [schema = strawberry.Schema(query=Query, mutation=Mutation,
    subscription=Subscription)]; Strawberry names [add_book] as [addBook]
    and maps the annotations [str], [int], [list[Book]] and [Book] to the
    non-null types [String!], [Int!], [[Book!]!] and [Book!]. *)
Definition schema : schema_registry :=
  [ mkType "Book"
      [ mkField "title" (TNonNull TString) [] (RAttr "title");
        mkField "author" (TNonNull TString) [] (RAttr "author") ];
    mkType "Query"
      [ mkField "books" (TNonNull (TListOf (TNonNull (TObj "Book")))) [] RGetBooks ];
    mkType "Mutation"
      [ mkField "addBook" (TNonNull (TObj "Book"))
          [("title", TNonNull TString); ("author", TNonNull TString)] RAddBook ];
    mkType "Subscription"
      [ mkField "count" (TNonNull TInt) [("target", TNonNull TInt)] RCount ] ].

Definition lookup_type (reg : schema_registry) (tn : string) : option type_def :=
  find (fun td => String.eqb (td_name td) tn) reg.

Definition lookup_field (reg : schema_registry) (tn fname : string) : option field_def :=
  match lookup_type reg tn with
  | Some td => find (fun fd => String.eqb (fd_name fd) fname) (td_fields td)
  | None => None
  end.

Definition lookup_arg (args : list (string * arg_value)) (k : string) : option arg_value :=
  match find (fun kv => String.eqb (fst kv) k) args with
  | Some (_, v) => Some v
  | None => None
  end.

(** ** The validator

    graphql-core's [validate(schema, document)], run by Strawberry before
    any resolver (spec section 4.3): a non-empty error list means the
    operation is not executed and the response is [data: null] with those
    errors.  The rules that apply to documents without fragments,
    variables or directives are modelled; the messages are abridged. *)

(** GraphQL's [Int] is a signed 32-bit integer. *)
Definition int32_ok (z : Z) : bool := andb (-2147483648 <=? z)%Z (z <? 2147483648)%Z.

Definition int32_error : string := "Int cannot represent non 32-bit signed integer value".

Definition is_non_null (t : gql_type) : bool :=
  match t with
  | TNonNull _ => true
  | _ => false
  end.

(** The named type under the list and non-null wrappers. *)
Fixpoint named_type (t : gql_type) : gql_type :=
  match t with
  | TListOf t' => named_type t'
  | TNonNull t' => named_type t'
  | _ => t
  end.

(** [ValuesOfCorrectType]: the error of a literal for its argument type. *)
Fixpoint literal_error (t : gql_type) (v : arg_value) : option string :=
  match t, v with
  | TNonNull t', _ => literal_error t' v
  | TString, AStr _ => None
  | TString, AInt _ => Some "String cannot represent a non string value"
  | TInt, AInt z => if int32_ok z then None else Some int32_error
  | TInt, AStr _ => Some "Int cannot represent non-integer value"
  | _, _ => Some "Expected value of an input type"
  end.

Definition lookup_arg_def (defs : list (string * gql_type)) (k : string) : option gql_type :=
  match find (fun kt => String.eqb (fst kt) k) defs with
  | Some (_, t) => Some t
  | None => None
  end.

Definition has_arg (args : list (string * arg_value)) (k : string) : bool :=
  existsb (fun kv => String.eqb (fst kv) k) args.

(** [UniqueArgumentNames]. *)
Fixpoint duplicate_args (args : list (string * arg_value)) : list string :=
  match args with
  | [] => []
  | kv :: rest =>
      app (if has_arg rest (fst kv) then ["There can be only one argument named " ++ fst kv] else [])
        (duplicate_args rest)
  end.

(** [KnownArgumentNames], [ValuesOfCorrectType], [UniqueArgumentNames] and
    [ProvidedRequiredArguments] on the arguments of one field; an argument
    of non-null type has no default and is required. *)
Definition args_errors (fd : field_def) (args : list (string * arg_value)) : list string :=
  app (flat_map (fun kv =>
         match lookup_arg_def (fd_args fd) (fst kv) with
         | None => ["Unknown argument " ++ fst kv ++ " on field " ++ fd_name fd]
         | Some t =>
             match literal_error t (snd kv) with
             | Some m => [m]
             | None => []
             end
         end) args)
   (app (duplicate_args args)
     (flat_map (fun kt =>
        if andb (is_non_null (snd kt)) (negb (has_arg args (fst kt)))
        then ["Field " ++ fd_name fd ++ " argument " ++ fst kt ++ " is required, but it was not provided"]
        else []) (fd_args fd))).

(** [FieldsOnCorrectType], [ScalarLeafs] and the argument rules on a field
    of the type [tn] and, through its sub-selection, on every field below. *)
Fixpoint validate_field (reg : schema_registry) (tn : string) (s : selection) {struct s}
  : list string :=
  match s with
  | Field alias name args sub =>
      match lookup_field reg tn name with
      | None => ["Cannot query field " ++ name ++ " on type " ++ tn]
      | Some fd =>
          app (args_errors fd args)
           (match named_type (fd_type fd) with
           | TObj tn' =>
               match sub with
               | [] => ["Field " ++ name ++ " must have a selection of subfields"]
               | _ :: _ => flat_map (validate_field reg tn') sub
               end
           | _ =>
               match sub with
               | [] => []
               | _ :: _ => ["Field " ++ name ++ " must not have a selection since its type has no subfields"]
               end
           end)
      end
  end.

Definition sel_key (s : selection) : string :=
  match s with
  | Field alias name _ _ => response_key alias name
  end.

Definition arg_value_eqb (v w : arg_value) : bool :=
  match v, w with
  | AStr s, AStr s' => String.eqb s s'
  | AInt z, AInt z' => Z.eqb z z'
  | _, _ => false
  end.

(** graphql-core's [same_arguments]: as many arguments, each one matched by
    name with an equal value. *)
Definition same_arguments (a1 a2 : list (string * arg_value)) : bool :=
  andb (Nat.eqb (length a1) (length a2))
    (forallb (fun kv =>
       match lookup_arg a2 (fst kv) with
       | Some v => arg_value_eqb (snd kv) v
       | None => false
       end) a1).

(** [OverlappingFieldsCanBeMerged], [find_conflict] for two fields with one
    response key on one type: a conflict when their names or arguments
    differ, else the conflicts between their sub-selections. *)
Fixpoint find_conflict (s1 s2 : selection) {struct s1} : list string :=
  match s1, s2 with
  | Field _ n1 a1 sub1, Field _ n2 a2 sub2 =>
      if andb (String.eqb n1 n2) (same_arguments a1 a2) then
        flat_map (fun s1' =>
          flat_map (fun s2' =>
            if String.eqb (sel_key s1') (sel_key s2') then find_conflict s1' s2' else []) sub2) sub1
      else ["Fields " ++ sel_key s1 ++ " conflict; use different aliases on the fields"]
  end.

(** The conflicts among the fields of one selection set. *)
Fixpoint pair_conflicts (sels : list selection) : list string :=
  match sels with
  | [] => []
  | s :: rest =>
      (flat_map (fun s' => if String.eqb (sel_key s) (sel_key s') then find_conflict s s' else [])
         rest ++ pair_conflicts rest)%list
  end.

(** The rule runs on every selection set of the document. *)
Fixpoint overlap_errors (s : selection) : list string :=
  match s with
  | Field _ _ _ sub => (pair_conflicts sub ++ flat_map overlap_errors sub)%list
  end.

(** CollectFields: the fields of a selection set grouped by response key,
    in first-occurrence order; a field repeating an earlier key adds its
    sub-selection to the earlier one's, whose name and arguments are kept. *)
Definition merge_field (acc : list selection) (s : selection) : list selection :=
  if existsb (fun s' => String.eqb (sel_key s') (sel_key s)) acc then
    map (fun s' =>
      if String.eqb (sel_key s') (sel_key s) then
        match s', s with
        | Field al n a sub, Field _ _ _ sub2 => Field al n a (sub ++ sub2)%list
        end
      else s') acc
  else (acc ++ [s])%list.

Definition collect_fields (sels : list selection) : list selection :=
  fold_left merge_field sels [].

Definition root_type (k : op_kind) : string :=
  match k with
  | OQuery => "Query"
  | OMutation => "Mutation"
  | OSubscription => "Subscription"
  end.

(** The validation errors of an operation; an empty selection set is a
    syntax error of the parser, which runs first.  [SingleFieldSubscriptions]
    counts the root fields after CollectFields. *)
Definition validate (reg : schema_registry) (op : operation) : list string :=
  match selections op with
  | [] => ["Syntax Error: Expected Name, found }"]
  | sels =>
      (flat_map (validate_field reg (root_type (op_type op))) sels ++
       pair_conflicts sels ++ flat_map overlap_errors sels ++
       match op_type op, collect_fields sels with
       | OSubscription, [_] => []
       | OSubscription, _ => ["Anonymous Subscription must select only one top level field."]
       | _, _ => []
       end)%list
  end.

(** The depth of a field's selection tree. *)
Fixpoint depth (s : selection) : nat :=
  match s with
  | Field _ _ _ sub => S (list_max (map depth sub))
  end.

(** The selection sets the executor walks: CollectFields at every level,
    the sub-fields of a merged field collected from all the fields merged
    into it (graphql-core's [collect_subfields]).  [fuel] bounds the depth. *)
Fixpoint normalize (fuel : nat) (sels : list selection) : list selection :=
  match fuel with
  | O => sels
  | S f =>
      map (fun s => match s with Field al n a sub => Field al n a (normalize f sub) end)
        (collect_fields sels)
  end.

Definition normalize_selections (sels : list selection) : list selection :=
  normalize (list_max (map depth sels)) sels.

(** ** The executor *)

Definition getattr (parent : value) (attr : string) : option value :=
  match parent with
  | VBook b =>
      if String.eqb attr "title" then Some (VStr (title b))
      else if String.eqb attr "author" then Some (VStr (author b))
      else None
  | _ => None
  end.

(** Invokes the resolver bound to a field with its parent value and
    arguments; [None] is a resolver failure.  In an executor pass of a
    subscription the [count] field resolves to the event, bound as the
    root value. *)
Definition call_resolver (r : resolver) (parent : value)
    (args : list (string * arg_value)) (db : store) : option (value * store) :=
  match r with
  | RGetBooks => Some (VList (map VBook (get_books db)), db)
  | RAddBook =>
      match lookup_arg args "title", lookup_arg args "author" with
      | Some (AStr t), Some (AStr a) =>
          let '(b, db') := add_book t a db in Some (VBook b, db')
      | _, _ => None
      end
  | RCount => Some (parent, db)
  | RAttr a => option_map (fun v => (v, db)) (getattr parent a)
  end.

(** Runs [f] on each element in order, threading the store: one at a
    time.  A result [None] is an error raised out of the element: the walk
    stops there and raises it further. *)
Fixpoint thread {A B : Type} (f : A -> store -> option B * list string * store)
    (l : list A) (db : store) : option (list B) * list string * store :=
  match l with
  | [] => (Some [], [], db)
  | x :: xs =>
      let '(r, e1, db1) := f x db in
      match r with
      | None => (None, e1, db1)
      | Some b =>
          let '(rs, e2, db2) := thread f xs db1 in
          (option_map (cons b) rs, (e1 ++ e2)%list, db2)
      end
  end.

(** graphql-core's [handle_field_error]: an error raised in a field or list
    item of non-null type is raised further, of a nullable type it makes the
    value null; the error itself was recorded where it was raised. *)
Definition handle_field_error (t : gql_type) (r : option json) : option json :=
  match r with
  | Some j => Some j
  | None => if is_non_null t then None else Some JNull
  end.

(** graphql-core's [complete_value]: completes a resolved value against the
    field's declared type; [obj] executes the sub-selection on an object
    value.  [None] is an error raised out of the value; a null in a non-null
    position raises one. *)
Fixpoint complete
    (obj : string -> value -> store -> option (list (string * json)) * list string * store)
    (t : gql_type) (v : value) (db : store) : option json * list string * store :=
  match t with
  | TNonNull t' =>
      let '(r, e, db') := complete obj t' v db in
      match r with
      | Some JNull => (None, (e ++ ["Cannot return null for non-nullable field"])%list, db')
      | _ => (r, e, db')
      end
  | TString =>
      match v with
      | VNone => (Some JNull, [], db)
      | VStr s => (Some (JStr s), [], db)
      | _ => (None, ["String cannot represent value"], db)
      end
  | TInt =>
      match v with
      | VNone => (Some JNull, [], db)
      | VInt z => if int32_ok z then (Some (JInt z), [], db) else (None, [int32_error], db)
      | _ => (None, ["Int cannot represent non-integer value"], db)
      end
  | TListOf t' =>
      match v with
      | VNone => (Some JNull, [], db)
      | VList vs =>
          let '(r, e, db') :=
            thread (fun v' d => let '(r', e', d') := complete obj t' v' d in
                                (handle_field_error t' r', e', d')) vs db in
          (option_map JList r, e, db')
      | _ => (None, ["Expected Iterable"], db)
      end
  | TObj tn =>
      match v with
      | VNone => (Some JNull, [], db)
      | _ => let '(r, e, db') := obj tn v db in (option_map JObj r, e, db')
      end
  end.

(** [execute_field]: resolves the field, completes its value, and handles
    an error raised on the way.  The validator rejects an unknown field
    before execution starts, so the first branch is never reached from
    [execute]. *)
Fixpoint exec_field (reg : schema_registry) (s : selection) (tn : string)
    (parent : value) (db : store) {struct s}
  : option (string * json) * list string * store :=
  match s with
  | Field alias name args sub =>
      match lookup_field reg tn name with
      | None => (None, ["Cannot query field " ++ name ++ " on type " ++ tn], db)
      | Some fd =>
          let '(r, e, db2) :=
            match call_resolver (fd_resolver fd) parent args db with
            | None => (None, ["resolver of " ++ name ++ " failed"], db)
            | Some (v, db1) =>
                complete (fun tn' v' db' => thread (fun s' => exec_field reg s' tn' v') sub db')
                  (fd_type fd) v db1
            end in
          (option_map (fun j => (response_key alias name, j)) (handle_field_error (fd_type fd) r),
           e, db2)
      end
  end.

(** Executes a selection set on an object of type [tn], root fields one at
    a time in document order ([execute_fields_serially] for a mutation; the
    resolvers of a query are synchronous, so [execute_fields] runs them in
    the same order). *)
Definition exec_selections (reg : schema_registry) (tn : string) (parent : value)
    (sels : list selection) (db : store)
  : option (list (string * json)) * list string * store :=
  thread (fun s => exec_field reg s tn parent) sels db.

(** [data] of a response: null when an error was raised out of a root field. *)
Definition data_of (r : option (list (string * json))) : json :=
  match r with
  | Some kvs => JObj kvs
  | None => JNull
  end.

(** ** The subscription engine *)

(** What the client does on an open subscription: request the next event,
    or cancel. *)
Inductive command := Next | Cancel.

(** Drives the event source: on [Next] awaits [__anext__] and runs one
    executor pass over the selection set with the event bound as the root
    value; on [Cancel] closes the generator with [aclose]. *)
Fixpoint drive (reg : schema_registry) (sels : list selection)
    (cmds : list command) (g : gen_state) (db : store) : list response * store :=
  match cmds with
  | [] => ([], db)
  | Next :: cs =>
      match anext g with
      | (Some ev, g') =>
          let '(r, e, db1) := exec_selections reg "Subscription" (VInt ev) sels db in
          let '(rs, db2) := drive reg sels cs g' db1 in
          (mkResponse (data_of r) e :: rs, db2)
      | (None, g') => drive reg sels cs g' db
      end
  | Cancel :: cs => drive reg sels cs (aclose g) db
  end.

(** The event source of a subscription root field (the subscribe phase);
    the validator has checked the [target] literal against [Int!]. *)
Definition source_stream (r : resolver) (args : list (string * arg_value)) : option gen_state :=
  match r, lookup_arg args "target" with
  | RCount, Some (AInt n) => Some (count n)
  | _, _ => None
  end.

(** ** Requests against the running server *)

(** The process state: the schema built at startup and the module-level
    [database] list. *)
Record server_state := mkState { registry : schema_registry; db_of : store }.

Definition initial_state : server_state := mkState schema database.

Inductive outcome :=
| Single (r : response)
| Stream (rs : list response).

Definition error_response (msg : string) : outcome := Single (mkResponse JNull [msg]).

(** Runs a validated operation: a query or mutation gives one envelope; a
    subscription gives one envelope per event, driven by the client's
    commands. *)
Definition run_operation (st : server_state) (op : operation) (cmds : list command)
  : outcome * server_state :=
  let reg := registry st in
  match op_type op with
  | OQuery =>
      let '(r, e, db') := exec_selections reg "Query" VNone (selections op) (db_of st) in
      (Single (mkResponse (data_of r) e), mkState reg db')
  | OMutation =>
      let '(r, e, db') := exec_selections reg "Mutation" VNone (selections op) (db_of st) in
      (Single (mkResponse (data_of r) e), mkState reg db')
  | OSubscription =>
      match selections op with
      | [Field _ name args sub] =>
          match lookup_field reg "Subscription" name with
          | Some fd =>
              match source_stream (fd_resolver fd) args with
              | Some g =>
                  let '(rs, db') := drive reg (selections op) cmds g (db_of st) in
                  (Stream rs, mkState reg db')
              | None => (error_response "subscription field has no event source", st)
              end
          | None => (error_response ("Cannot query field " ++ name ++ " on type Subscription"), st)
          end
      | _ => (error_response "Subscription must select only one top level field", st)
      end
  end.

(** [execute]: validates the operation, then runs it on its collected
    fields; an invalid operation runs nothing and answers [data: null]
    with the validation errors. *)
Definition execute (st : server_state) (op : operation) (cmds : list command)
  : outcome * server_state :=
  match validate (registry st) op with
  | [] => run_operation st (mkOperation (op_type op) (normalize_selections (selections op))) cmds
  | errs => (Single (mkResponse JNull errs), st)
  end.

(** ** The documents of the example *)

(** [{ books { title author } }] *)
Definition books_query : operation :=
  mkOperation OQuery [Field None "books" [] [Field None "title" [] []; Field None "author" [] []]].

(** [mutation { addBook(title: t, author: a) { title author } }] *)
Definition add_book_field (key : option string) (t a : string) : selection :=
  Field key "addBook" [("title", AStr t); ("author", AStr a)]
    [Field None "title" [] []; Field None "author" [] []].

Definition add_book_mutation (t a : string) : operation :=
  mkOperation OMutation [add_book_field None t a].

(** [subscription { count(target: n) }] *)
Definition count_subscription (n : Z) : operation :=
  mkOperation OSubscription [Field None "count" [("target", AInt n)] []].

(** The JSON of a stored book as the [books { title author }] query renders it. *)
Definition book_json (b : Book) : json :=
  JObj [("title", JStr (title b)); ("author", JStr (author b))].

(** The envelope of the subscription for the event [i]. *)
Definition count_envelope (i : Z) : response := mkResponse (JObj [("count", JInt i)]) [].

(** [range(n)] as a list of integers. *)
Definition zrange (n : Z) : list Z := map Z.of_nat (seq 0 (Z.to_nat n)).

(** The wire form of an envelope: [errors] is omitted when empty. *)
Definition envelope_json (r : response) : json :=
  match errors r with
  | [] => JObj [("data", data r)]
  | es => JObj [("data", data r); ("errors", JList (map JStr es))]
  end.

(** A process serving a sequence of requests, one after the other; the
    trace pairs each request's outcome with the state it ran on. *)
Fixpoint run_requests (st : server_state) (reqs : list (operation * list command))
  : list (server_state * outcome) * server_state :=
  match reqs with
  | [] => ([], st)
  | (op, cmds) :: rest =>
      let '(o, st1) := execute st op cmds in
      let '(trace, st2) := run_requests st1 rest in
      ((st, o) :: trace, st2)
  end.

(** The JSON image of a scalar value and the scalar type it inhabits. *)
Definition scalar_of (v : value) : option (gql_type * json) :=
  match v with
  | VStr s => Some (TString, JStr s)
  | VInt z => Some (TInt, JInt z)
  | _ => None
  end.

(** Resolvers other than [add_book] leave the store alone. *)
Definition resolver_ro (r : resolver) : bool :=
  match r with
  | RAddBook => false
  | _ => true
  end.

Fixpoint type_in (ro : list string) (t : gql_type) : bool :=
  match t with
  | TObj tn => existsb (String.eqb tn) ro
  | TListOf t' => type_in ro t'
  | TNonNull t' => type_in ro t'
  | _ => true
  end.

(** Every field of [tn] has a read-only resolver and only reaches types of [ro]. *)
Definition read_only_type (reg : schema_registry) (ro : list string) (tn : string) : bool :=
  match lookup_type reg tn with
  | Some td =>
      forallb (fun fd => andb (resolver_ro (fd_resolver fd)) (type_in ro (fd_type fd))) (td_fields td)
  | None => true
  end.

(** An [addBook] root field given by its alias, title and author. *)
Definition add_book_entry (f : option string * string * string) : selection :=
  let '(k, t, a) := f in add_book_field k t a.

Definition entry_key (f : option string * string * string) : string :=
  let '(k, _, _) := f in response_key k "addBook".

Definition entry_book (f : option string * string * string) : Book :=
  let '(_, t, a) := f in mkBook t a.

Definition entry_result (f : option string * string * string) : string * json :=
  let '(k, t, a) := f in (response_key k "addBook", book_json (mkBook t a)).

Definition is_next (c : command) : bool :=
  match c with
  | Next => true
  | Cancel => false
  end.

(** Induction over selections, with the hypothesis on every sub-field. *)
Section SelectionInd.
Variable P : selection -> Prop.
Hypothesis HField : forall alias name args sub, Forall P sub -> P (Field alias name args sub).

Fixpoint selection_ind' (s : selection) : P s :=
  match s with
  | Field alias name args sub =>
      HField alias name args sub
        ((fix go (l : list selection) : Forall P l :=
            match l with
            | [] => Forall_nil P
            | x :: xs => Forall_cons x (selection_ind' x) (go xs)
            end) sub)
  end.
End SelectionInd.

(** ** Proofs *)

Example books_query_initial :
  fst (execute initial_state books_query []) =
  Single (mkResponse (JObj [("books", JList (map book_json database))]) []).
Proof. reflexivity. Qed.

Example count_three :
  fst (execute initial_state (count_subscription 3) [Next; Next; Next; Next]) =
  Stream (map count_envelope [0; 1; 2]%Z).
Proof. reflexivity. Qed.

Example count_cancel :
  fst (execute initial_state (count_subscription 3) [Next; Cancel; Next; Next]) =
  Stream (map count_envelope [0]%Z).
Proof. reflexivity. Qed.

Example count_too_large :
  fst (execute initial_state (count_subscription 2147483648) [Next; Next]) =
  Single (mkResponse JNull [int32_error]).
Proof. reflexivity. Qed.

(** Two fields under one response key are merged: one [addBook] runs. *)
Example add_book_merged :
  execute initial_state
    (mkOperation OMutation [add_book_field (Some "x") "a" "b"; add_book_field (Some "x") "a" "b"]) [] =
  (Single (mkResponse (JObj [("x", book_json (mkBook "a" "b"))]) []),
   mkState schema (database ++ [mkBook "a" "b"])%list).
Proof. reflexivity. Qed.

(** ... and two fields under one key with different arguments conflict. *)
Example add_book_conflict :
  execute initial_state
    (mkOperation OMutation [add_book_field (Some "x") "a" "b"; add_book_field (Some "x") "a" "c"]) [] =
  (Single (mkResponse JNull ["Fields x conflict; use different aliases on the fields"]), initial_state).
Proof. reflexivity. Qed.

(** ** Unfolding lemmas *)

Lemma thread_cons {A B : Type} (f : A -> store -> option B * list string * store) x xs db :
  thread f (x :: xs) db =
  let '(r, e1, db1) := f x db in
  match r with
  | None => (None, e1, db1)
  | Some b =>
      let '(rs, e2, db2) := thread f xs db1 in
      (option_map (cons b) rs, (e1 ++ e2)%list, db2)
  end.
Proof. reflexivity. Qed.

Lemma exec_field_eq reg alias name args sub tn parent db :
  exec_field reg (Field alias name args sub) tn parent db =
  match lookup_field reg tn name with
  | None => (None, ["Cannot query field " ++ name ++ " on type " ++ tn], db)
  | Some fd =>
      let '(r, e, db2) :=
        match call_resolver (fd_resolver fd) parent args db with
        | None => (None, ["resolver of " ++ name ++ " failed"], db)
        | Some (v, db1) =>
            complete (fun tn' v' db' => thread (fun s' => exec_field reg s' tn' v') sub db')
              (fd_type fd) v db1
        end in
      (option_map (fun j => (response_key alias name, j)) (handle_field_error (fd_type fd) r),
       e, db2)
  end.
Proof. reflexivity. Qed.

Lemma complete_nonnull obj t v db :
  complete obj (TNonNull t) v db =
  let '(r, e, db') := complete obj t v db in
  match r with
  | Some JNull => (None, (e ++ ["Cannot return null for non-nullable field"])%list, db')
  | _ => (r, e, db')
  end.
Proof. reflexivity. Qed.

Lemma complete_list obj t vs db :
  complete obj (TListOf t) (VList vs) db =
  let '(r, e, db') :=
    thread (fun v' d => let '(r', e', d') := complete obj t v' d in
                        (handle_field_error t r', e', d')) vs db in
  (option_map JList r, e, db').
Proof. reflexivity. Qed.

Lemma complete_obj obj tn v db :
  v <> VNone ->
  complete obj (TObj tn) v db = let '(r, e, db') := obj tn v db in (option_map JObj r, e, db').
Proof. intro H. destruct v; [congruence|reflexivity..]. Qed.

Lemma flat_map_nil {A B : Type} (f : A -> list B) (l : list A) :
  (forall x, In x l -> f x = []) -> flat_map f l = [].
Proof.
  induction l as [|x l IH]; intro H; [reflexivity|].
  cbn [flat_map]. rewrite H by (left; reflexivity). apply IH. intros y Hy. apply H. right. exact Hy.
Qed.

Lemma int32_ok_iff (z : Z) : int32_ok z = true <-> (-2147483648 <= z < 2147483648)%Z.
Proof.
  unfold int32_ok. rewrite Bool.andb_true_iff, Z.leb_le, Z.ltb_lt. tauto.
Qed.

(** ** The read path of the example documents *)

(** The [title author] sub-selection on a stored book. *)
Lemma exec_book_fields (b : Book) (db : store) :
  exec_selections schema "Book" (VBook b) [Field None "title" [] []; Field None "author" [] []] db =
  (Some [("title", JStr (title b)); ("author", JStr (author b))], [], db).
Proof. reflexivity. Qed.

Lemma complete_books
    (obj : string -> value -> store -> option (list (string * json)) * list string * store)
    (Hobj : forall b d, obj "Book" (VBook b) d =
                        (Some [("title", JStr (title b)); ("author", JStr (author b))], [], d))
    (bs : list Book) (db : store) :
  complete obj (TNonNull (TListOf (TNonNull (TObj "Book")))) (VList (map VBook bs)) db =
  (Some (JList (map book_json bs)), [], db).
Proof.
  rewrite complete_nonnull, complete_list.
  assert (H : thread (fun v' d => let '(r', e', d') := complete obj (TNonNull (TObj "Book")) v' d in
                        (handle_field_error (TNonNull (TObj "Book")) r', e', d')) (map VBook bs) db
              = (Some (map book_json bs), [], db)).
  { induction bs as [|b bs IH]; [reflexivity|].
    cbn [map]. rewrite thread_cons, complete_nonnull, complete_obj, Hobj by discriminate.
    cbv beta iota. cbn [option_map handle_field_error]. rewrite IH. reflexivity. }
  rewrite H. reflexivity.
Qed.

Lemma execute_books_query (db : store) :
  execute (mkState schema db) books_query [] =
  (Single (mkResponse (JObj [("books", JList (map book_json db))]) []), mkState schema db).
Proof.
  unfold execute. cbn [registry].
  replace (validate schema books_query) with (@nil string) by reflexivity.
  replace (normalize_selections (selections books_query)) with (selections books_query)
    by reflexivity.
  unfold run_operation, exec_selections, books_query. cbn [op_type selections registry db_of].
  rewrite thread_cons, exec_field_eq.
  replace (lookup_field schema "Query" "books")
    with (Some (mkField "books" (TNonNull (TListOf (TNonNull (TObj "Book")))) [] RGetBooks))
    by reflexivity.
  cbn [fd_resolver fd_type call_resolver get_books].
  rewrite complete_books by reflexivity. reflexivity.
Qed.

Lemma execute_add_book (t a : string) (db : store) :
  execute (mkState schema db) (add_book_mutation t a) [] =
  (Single (mkResponse (JObj [("addBook", JObj [("title", JStr t); ("author", JStr a)])]) []),
   mkState schema (db ++ [mkBook t a])%list).
Proof. reflexivity. Qed.

(** ** Mutations made of [addBook] fields *)

Lemma exec_add_book_field (key : option string) (t a : string) (db : store) :
  exec_field schema (add_book_field key t a) "Mutation" VNone db =
  (Some (response_key key "addBook", book_json (mkBook t a)), [], (db ++ [mkBook t a])%list).
Proof. reflexivity. Qed.

Lemma thread_add_books (fs : list (option string * string * string)) (db : store) :
  thread (fun s => exec_field schema s "Mutation" VNone) (map add_book_entry fs) db =
  (Some (map entry_result fs), [], (db ++ map entry_book fs)%list).
Proof.
  revert db. induction fs as [|[[k t] a] fs IH]; intro db.
  - cbn. rewrite app_nil_r. reflexivity.
  - cbn [map]. rewrite thread_cons. cbn [add_book_entry].
    rewrite exec_add_book_field. cbv beta iota. rewrite IH.
    cbn [entry_result entry_book option_map]. rewrite <- app_assoc. reflexivity.
Qed.

Lemma sel_keys_add_books (fs : list (option string * string * string)) :
  map sel_key (map add_book_entry fs) = map entry_key fs.
Proof. induction fs as [|[[k t] a] fs IH]; cbn; [reflexivity|]. rewrite IH. reflexivity. Qed.

(** No two fields of a selection set share a response key: nothing to merge. *)
Lemma pair_conflicts_nodup (sels : list selection) :
  NoDup (map sel_key sels) -> pair_conflicts sels = [].
Proof.
  induction sels as [|s rest IH]; intro Hnd; [reflexivity|].
  cbn [map] in Hnd. inversion Hnd as [|x l Hnotin Hnd' [Hx Hl]]; subst.
  cbn [pair_conflicts]. rewrite IH by exact Hnd'. rewrite app_nil_r.
  apply flat_map_nil. intros s' Hs'.
  destruct (String.eqb_spec (sel_key s) (sel_key s')) as [Heq|]; [|reflexivity].
  exfalso. apply Hnotin. rewrite Heq. apply in_map. exact Hs'.
Qed.

Lemma collect_fields_nodup (sels acc : list selection) :
  NoDup (map sel_key (acc ++ sels)) -> fold_left merge_field sels acc = (acc ++ sels)%list.
Proof.
  revert acc. induction sels as [|s rest IH]; intros acc Hnd.
  - cbn. rewrite app_nil_r. reflexivity.
  - cbn [fold_left].
    assert (Hm : merge_field acc s = (acc ++ [s])%list).
    { unfold merge_field.
      destruct (existsb (fun s' => String.eqb (sel_key s') (sel_key s)) acc) eqn:He;
        [|reflexivity].
      exfalso. apply existsb_exists in He as [s' [Hin Heq]].
      apply String.eqb_eq in Heq.
      rewrite map_app in Hnd. cbn [map] in Hnd.
      apply NoDup_remove_2 in Hnd. apply Hnd. apply in_or_app. left.
      rewrite <- Heq. apply in_map. exact Hin. }
    rewrite Hm, IH.
    + rewrite <- app_assoc. reflexivity.
    + rewrite <- app_assoc. exact Hnd.
Qed.

Lemma normalize_nil (f : nat) : normalize f [] = [].
Proof. destruct f; reflexivity. Qed.

Lemma normalize_add_books (f : nat) (fs : list (option string * string * string)) :
  NoDup (map entry_key fs) ->
  normalize (S (S f)) (map add_book_entry fs) = map add_book_entry fs.
Proof.
  intro Hnd. cbn [normalize]. unfold collect_fields.
  rewrite collect_fields_nodup by (cbn [app]; rewrite sel_keys_add_books; exact Hnd).
  cbn [app]. rewrite map_map.
  induction fs as [|[[k t] a] fs IH]; [reflexivity|].
  cbn [map]. f_equal; [|apply IH; inversion Hnd; assumption].
  cbn. rewrite normalize_nil. reflexivity.
Qed.

Lemma validate_add_books (fs : list (option string * string * string)) :
  fs <> [] -> NoDup (map entry_key fs) ->
  validate schema (mkOperation OMutation (map add_book_entry fs)) = [].
Proof.
  intros Hne Hnd. destruct fs as [|x fs']; [congruence|].
  change (validate schema (mkOperation OMutation (map add_book_entry (x :: fs')))) with
    (flat_map (validate_field schema "Mutation") (map add_book_entry (x :: fs')) ++
     pair_conflicts (map add_book_entry (x :: fs')) ++
     flat_map overlap_errors (map add_book_entry (x :: fs')) ++ [])%list.
  rewrite pair_conflicts_nodup by (rewrite sel_keys_add_books; exact Hnd).
  rewrite !flat_map_nil; [reflexivity| |].
  - intros s Hs. apply in_map_iff in Hs as [[[k t] a] [<- _]]. reflexivity.
  - intros s Hs. apply in_map_iff in Hs as [[[k t] a] [<- _]]. reflexivity.
Qed.

(** A mutation of [addBook] fields with distinct response keys. *)
Lemma execute_add_books (fs : list (option string * string * string)) (db : store) :
  fs <> [] -> NoDup (map entry_key fs) ->
  execute (mkState schema db) (mkOperation OMutation (map add_book_entry fs)) [] =
    (Single (mkResponse (JObj (map entry_result fs)) []),
     mkState schema (db ++ map entry_book fs)%list).
Proof.
  intros Hne Hnd. unfold execute. cbn [registry].
  rewrite validate_add_books by assumption.
  assert (Hfuel : exists f, list_max (map depth (map add_book_entry fs)) = S (S f)).
  { destruct fs as [|[[k t] a] fs']; [congruence|].
    exists (pred (pred (list_max (map depth (map add_book_entry ((k, t, a) :: fs')))))).
    cbn [map list_max fold_right add_book_entry].
    change (depth (add_book_field k t a)) with 2. lia. }
  destruct Hfuel as [f Hf]. unfold normalize_selections. cbn [selections op_type].
  rewrite Hf, normalize_add_books by exact Hnd.
  unfold run_operation, exec_selections. cbn [op_type selections registry db_of].
  rewrite thread_add_books. reflexivity.
Qed.

(** ** The claims on the book store *)

(** C1: on the initial two-book store, [{ books { title author } }]
    returns the two books in store order, with no errors; on any store the
    [books] field is exactly the store's contents, in order. *)
Theorem books_query_initial_store :
  execute initial_state books_query [] =
    (Single (mkResponse
       (JObj [("books",
         JList [JObj [("title", JStr "The Great Gatsby"); ("author", JStr "F. Scott Fitzgerald")];
                JObj [("title", JStr "Gatsby 2"); ("author", JStr "F. Scott Fitzgerald")]])]) []),
     initial_state) /\
  envelope_json (mkResponse
       (JObj [("books",
         JList [JObj [("title", JStr "The Great Gatsby"); ("author", JStr "F. Scott Fitzgerald")];
                JObj [("title", JStr "Gatsby 2"); ("author", JStr "F. Scott Fitzgerald")]])]) []) =
    JObj [("data", JObj [("books",
         JList [JObj [("title", JStr "The Great Gatsby"); ("author", JStr "F. Scott Fitzgerald")];
                JObj [("title", JStr "Gatsby 2"); ("author", JStr "F. Scott Fitzgerald")]])])] /\
  (forall db : store,
     fst (execute (mkState schema db) books_query []) =
     Single (mkResponse (JObj [("books", JList (map book_json db))]) [])).
Proof.
  split; [|split].
  - apply execute_books_query.
  - reflexivity.
  - intro db. rewrite execute_books_query. reflexivity.
Qed.

(** C2: on any store, [addBook(title:"New Book", author:"me")] appends
    exactly that book and returns it; when the store held two books, a
    [books] query afterwards returns three, the new one last. *)
Theorem add_book_example :
  (forall db : store,
     execute (mkState schema db) (add_book_mutation "New Book" "me") [] =
       (Single (mkResponse (JObj [("addBook", JObj [("title", JStr "New Book"); ("author", JStr "me")])]) []),
        mkState schema (db ++ [mkBook "New Book" "me"])%list)) /\
  (forall db : store, length db = 2 ->
     exists js,
       fst (execute (snd (execute (mkState schema db) (add_book_mutation "New Book" "me") []))
              books_query []) = Single (mkResponse (JObj [("books", JList js)]) []) /\
       length js = 3 /\
       js = (map book_json db ++ [JObj [("title", JStr "New Book"); ("author", JStr "me")]])%list).
Proof.
  split; [intro db; apply execute_add_book|].
  intros db H2. rewrite execute_add_book.
  exists (map book_json (db ++ [mkBook "New Book" "me"])%list).
  cbn [snd]. rewrite execute_books_query. split; [reflexivity|].
  rewrite map_app, length_app, length_map, H2. split; reflexivity.
Qed.

Lemma add_book_example_witness :
  length database = 2 /\
  exists js,
    fst (execute (snd (execute (mkState schema database) (add_book_mutation "New Book" "me") []))
           books_query []) = Single (mkResponse (JObj [("books", JList js)]) []) /\
    length js = 3 /\
    js = (map book_json database ++ [JObj [("title", JStr "New Book"); ("author", JStr "me")]])%list.
Proof.
  split; [reflexivity|].
  exact (proj2 add_book_example database eq_refl).
Defined.




Lemma exec_scalar_field reg tn parent alias name args sub db fd v db' t j :
  lookup_field reg tn name = Some fd ->
  call_resolver (fd_resolver fd) parent args db = Some (v, db') ->
  scalar_of v = Some (t, j) ->
  (fd_type fd = t \/ fd_type fd = TNonNull t) ->
  (forall z, v = VInt z -> int32_ok z = true) ->
  exec_field reg (Field alias name args sub) tn parent db =
    (Some (response_key alias name, j), [], db').
Proof.
  intros Hl Hc Hs Ht Hz. rewrite exec_field_eq, Hl, Hc.
  destruct v as [|s|z| |]; cbn in Hs; try discriminate;
    injection Hs as <- <-; destruct Ht as [Ht|Ht]; rewrite Ht; cbn -[int32_ok];
    try reflexivity;
    rewrite (Hz z eq_refl); reflexivity.
Qed.

Lemma exec_int_out_of_range reg tn parent alias name args sub db fd z db' :
  lookup_field reg tn name = Some fd ->
  call_resolver (fd_resolver fd) parent args db = Some (VInt z, db') ->
  (fd_type fd = TInt \/ fd_type fd = TNonNull TInt) ->
  int32_ok z = false ->
  exec_field reg (Field alias name args sub) tn parent db =
    (option_map (fun j => (response_key alias name, j)) (handle_field_error (fd_type fd) None),
     [int32_error], db').
Proof.
  intros Hl Hc Ht Hz. rewrite exec_field_eq, Hl, Hc.
  destruct Ht as [Ht|Ht]; rewrite Ht; cbn -[int32_ok]; rewrite Hz; reflexivity.
Qed.

(** One executor pass of [subscription { count(target: n) }] on the event [ev]. *)
Lemma count_pass (n ev : Z) (db : store) :
  int32_ok ev = true ->
  exec_selections schema "Subscription" (VInt ev) (selections (count_subscription n)) db =
  (Some [("count", JInt ev)], [], db).
Proof. intro H. cbn -[int32_ok]. rewrite H. reflexivity. Qed.

(** C5 (corrected): a String, or an Int in the signed 32-bit range, that a
    resolver returns for a field of that scalar type is the field's value in
    the result tree, under its key, with no error and no coercion; an Int
    outside the range is not a GraphQL Int: the field errors with
    "Int cannot represent non 32-bit signed integer value" (null when the
    field is nullable, raised further when it is non-null).  At the
    subscription root [data.count] is the event itself, and [addBook]
    returns exactly the title and author it was given. *)
Theorem scalar_field_round_trip :
  (forall reg tn parent alias name args sub db fd v db' t j,
     lookup_field reg tn name = Some fd ->
     call_resolver (fd_resolver fd) parent args db = Some (v, db') ->
     scalar_of v = Some (t, j) ->
     (fd_type fd = t \/ fd_type fd = TNonNull t) ->
     (forall z, v = VInt z -> int32_ok z = true) ->
     exec_field reg (Field alias name args sub) tn parent db =
       (Some (response_key alias name, j), [], db')) /\
  (forall reg tn parent alias name args sub db fd z db',
     lookup_field reg tn name = Some fd ->
     call_resolver (fd_resolver fd) parent args db = Some (VInt z, db') ->
     (fd_type fd = TInt \/ fd_type fd = TNonNull TInt) ->
     int32_ok z = false ->
     exec_field reg (Field alias name args sub) tn parent db =
       (option_map (fun j => (response_key alias name, j)) (handle_field_error (fd_type fd) None),
        [int32_error], db')) /\
  (forall n ev db,
     int32_ok ev = true ->
     exec_selections schema "Subscription" (VInt ev) (selections (count_subscription n)) db =
       (Some [("count", JInt ev)], [], db)) /\
  (forall t a db,
     fst (execute (mkState schema db) (add_book_mutation t a) []) =
       Single (mkResponse (JObj [("addBook", JObj [("title", JStr t); ("author", JStr a)])]) [])).
Proof.
  split; [|split; [|split]].
  - exact exec_scalar_field.
  - exact exec_int_out_of_range.
  - intros n ev db. apply count_pass.
  - intros t a db. rewrite execute_add_book. reflexivity.
Qed.

Lemma scalar_field_round_trip_witness :
  exec_field schema (Field None "title" [] []) "Book" (VBook (mkBook "Dune" "Herbert")) [] =
    (Some ("title", JStr "Dune"), [], []) /\
  exec_field schema (Field None "count" [] []) "Subscription" (VInt 2147483648) [] =
    (None, [int32_error], []) /\
  exec_selections schema "Subscription" (VInt 41) (selections (count_subscription 42)) [] =
    (Some [("count", JInt 41)], [], []) /\
  fst (execute (mkState schema []) (add_book_mutation "Dune" "Herbert") []) =
    Single (mkResponse (JObj [("addBook", JObj [("title", JStr "Dune"); ("author", JStr "Herbert")])]) []).
Proof.
  split; [|split; [|split]].
  - exact (proj1 scalar_field_round_trip schema "Book" (VBook (mkBook "Dune" "Herbert"))
             None "title" [] [] [] (mkField "title" (TNonNull TString) [] (RAttr "title"))
             (VStr "Dune") [] TString (JStr "Dune") eq_refl eq_refl eq_refl
             (or_intror eq_refl) (fun z H => match H with eq_refl => I end)).
  - exact (proj1 (proj2 scalar_field_round_trip) schema "Subscription" (VInt 2147483648)
             None "count" [] [] [] (mkField "count" (TNonNull TInt) [("target", TNonNull TInt)] RCount)
             2147483648%Z [] eq_refl eq_refl (or_intror eq_refl) eq_refl).
  - exact (proj1 (proj2 (proj2 scalar_field_round_trip)) 42%Z 41%Z [] eq_refl).
  - exact (proj2 (proj2 (proj2 scalar_field_round_trip)) "Dune" "Herbert" []).
Defined.

(** The C5 counterexample: the [count] field, of type [Int!], resolving
    to the integer 2^31 does not put 2^31 in the result: it errors. *)
Lemma scalar_field_round_trip_counterexample :
  call_resolver RCount (VInt 2147483648) [] [] = Some (VInt 2147483648, []) /\
  exec_field schema (Field None "count" [] []) "Subscription" (VInt 2147483648) [] =
    (None, ["Int cannot represent non 32-bit signed integer value"], []).
Proof. split; reflexivity. Qed.

(** C8: [add_book] changes the store only by appending one book at the
    end: the old books keep their positions and order, and the length
    grows by exactly one. *)
Theorem add_book_frame (t a : string) (db : store) :
  add_book t a db = (mkBook t a, (db ++ [mkBook t a])%list) /\
  firstn (length db) (snd (add_book t a db)) = db /\
  skipn (length db) (snd (add_book t a db)) = [mkBook t a] /\
  length (snd (add_book t a db)) = S (length db) /\
  db_of (snd (execute (mkState schema db) (add_book_mutation t a) [])) =
    (db ++ [mkBook t a])%list.
Proof.
  cbn [add_book snd]. split; [reflexivity|]. split; [|split; [|split]].
  - rewrite firstn_app, Nat.sub_diag, firstn_all. cbn. apply app_nil_r.
  - rewrite skipn_app, Nat.sub_diag, skipn_all. reflexivity.
  - rewrite length_app. cbn. lia.
  - rewrite execute_add_book. reflexivity.
Qed.

(** ** The count subscription *)

Lemma validate_count (n : Z) :
  validate schema (count_subscription n) = if int32_ok n then [] else [int32_error].
Proof. cbn -[int32_ok]. destruct (int32_ok n); reflexivity. Qed.

Lemma execute_count (n : Z) (cmds : list command) (db : store) :
  execute (mkState schema db) (count_subscription n) cmds =
  if int32_ok n then
    let '(rs, db') := drive schema (selections (count_subscription n)) cmds (count n) db in
    (Stream rs, mkState schema db')
  else (Single (mkResponse JNull [int32_error]), mkState schema db).
Proof.
  unfold execute. cbn [registry]. rewrite validate_count.
  destruct (int32_ok n); reflexivity.
Qed.

(** A finished or closed generator never yields again. *)
Lemma drive_finished reg sels cmds db :
  drive reg sels cmds GenFinished db = ([], db).
Proof.
  induction cmds as [|[|] cs IH]; cbn; [reflexivity|apply IH|apply IH].
Qed.

Lemma drive_exhausted reg sels cmds (i n : Z) db :
  (n <= i)%Z -> drive reg sels cmds (GenRunning i n) db = ([], db).
Proof.
  intro Hi. destruct cmds as [|[|] cs]; cbn; [reflexivity| |apply drive_finished].
  replace (i <? n)%Z with false by (symmetry; apply Z.ltb_ge; lia).
  apply drive_finished.
Qed.

(** [k] requests while the generator still has [k] values to give yield the
    envelopes of those [k] events, in order. *)
Lemma drive_nexts (n : Z) (k i : nat) (rest : list command) (db : store) :
  (Z.of_nat (i + k) <= n)%Z -> (n <= 2147483648)%Z ->
  drive schema (selections (count_subscription n)) (repeat Next k ++ rest)
    (GenRunning (Z.of_nat i) n) db =
  let '(rs, db') := drive schema (selections (count_subscription n)) rest
                      (GenRunning (Z.of_nat (i + k)) n) db in
  ((map (fun j => count_envelope (Z.of_nat j)) (seq i k) ++ rs)%list, db').
Proof.
  intro Hik. revert i Hik. induction k as [|k IH]; intros i Hik Hn.
  - rewrite Nat.add_0_r. cbn [repeat app seq map].
    destruct (drive _ _ rest _ db). reflexivity.
  - cbn [repeat app drive anext].
    replace (Z.of_nat i <? n)%Z with true by (symmetry; apply Z.ltb_lt; lia).
    rewrite count_pass by (apply int32_ok_iff; lia). cbv beta iota.
    replace (Z.of_nat i + 1)%Z with (Z.of_nat (S i)) by lia.
    rewrite IH by lia. replace (S i + k)%nat with (i + S k)%nat by lia.
    destruct (drive _ _ rest _ db). reflexivity.
Qed.

Lemma iter_anext (n : Z) (k i : nat) :
  (Z.of_nat (i + k) <= n)%Z ->
  Nat.iter k (fun g => snd (anext g)) (GenRunning (Z.of_nat i) n) =
  GenRunning (Z.of_nat (i + k)) n.
Proof.
  revert i. induction k as [|k IH]; intros i Hik.
  - rewrite Nat.add_0_r. reflexivity.
  - rewrite Nat.iter_succ_r. cbn [anext].
    replace (Z.of_nat i <? n)%Z with true by (symmetry; apply Z.ltb_lt; lia).
    cbn [snd]. replace (Z.of_nat i + 1)%Z with (Z.of_nat (S i)) by lia.
    rewrite IH by lia. f_equal. f_equal. lia.
Qed.

Lemma zrange_seq (k : nat) :
  map (fun j => count_envelope (Z.of_nat j)) (seq 0 k) = map count_envelope (zrange (Z.of_nat k)).
Proof. unfold zrange. rewrite Nat2Z.id, map_map. reflexivity. Qed.

Lemma nth_error_zrange (n i : Z) :
  (0 <= i < n)%Z -> nth_error (zrange n) (Z.to_nat i) = Some i.
Proof.
  intro Hi. unfold zrange. rewrite nth_error_map, nth_error_seq.
  destruct (Nat.ltb_spec (Z.to_nat i) (Z.to_nat n)); [|lia].
  cbn. f_equal. lia.
Qed.

(** C3 (corrected): for [0 <= N < 2^31] (a target of GraphQL type [Int!]),
    [count(target: N)] driven by at least [N] requests produces exactly
    [N] envelopes, the [i]-th carrying the event [i], and nothing more:
    the generator itself is exhausted after its [N]-th value.  A target
    [N >= 2^31] fails validation: one envelope with [data] null and the
    error "Int cannot represent non 32-bit signed integer value". *)
Theorem count_subscription_envelopes (n : Z) (m : nat) (db : store)
    (Hm : (Z.to_nat n <= m)%nat) :
  (int32_ok n = true ->
   execute (mkState schema db) (count_subscription n) (repeat Next m) =
     (Stream (map count_envelope (zrange n)), mkState schema db)) /\
  (int32_ok n = false ->
   execute (mkState schema db) (count_subscription n) (repeat Next m) =
     (Single (mkResponse JNull [int32_error]), mkState schema db)) /\
  length (map count_envelope (zrange n)) = Z.to_nat n /\
  (forall i : Z, (0 <= i < n)%Z ->
     nth_error (map count_envelope (zrange n)) (Z.to_nat i) = Some (count_envelope i)) /\
  fst (anext (Nat.iter (Z.to_nat n) (fun g => snd (anext g)) (count n))) = None.
Proof.
  split; [|split; [|split; [|split]]].
  - intro Hr. rewrite execute_count, Hr. unfold count.
    apply int32_ok_iff in Hr.
    destruct (Z.le_gt_cases n 0) as [Hn|Hn].
    + rewrite drive_exhausted by lia.
      unfold zrange. replace (Z.to_nat n) with 0%nat by lia. reflexivity.
    + replace m with (Z.to_nat n + (m - Z.to_nat n))%nat by lia.
      rewrite repeat_app.
      change 0%Z with (Z.of_nat 0).
      rewrite drive_nexts by lia.
      rewrite drive_exhausted by lia.
      rewrite app_nil_r.
      rewrite zrange_seq, Z2Nat.id by lia. reflexivity.
  - intro Hr. rewrite execute_count, Hr. reflexivity.
  - unfold zrange. rewrite !length_map, length_seq. reflexivity.
  - intros i Hi. rewrite nth_error_map, nth_error_zrange by exact Hi. reflexivity.
  - unfold count. destruct (Z.le_gt_cases n 0) as [Hn|Hn].
    + replace (Z.to_nat n) with 0%nat by lia. cbn.
      replace (0 <? n)%Z with false by (symmetry; apply Z.ltb_ge; lia). reflexivity.
    + change 0%Z with (Z.of_nat 0). rewrite iter_anext by lia. cbn [anext].
      replace (Z.of_nat (0 + Z.to_nat n) <? n)%Z with false
        by (symmetry; apply Z.ltb_ge; lia).
      reflexivity.
Qed.

Lemma count_subscription_envelopes_witness :
  (Z.to_nat 3 <= 4)%nat /\
  execute (mkState schema database) (count_subscription 3) (repeat Next 4) =
    (Stream (map count_envelope (zrange 3)), mkState schema database) /\
  map count_envelope (zrange 3) = [count_envelope 0; count_envelope 1; count_envelope 2].
Proof.
  split; [vm_compute; lia|]. split; [|reflexivity].
  exact (proj1 (count_subscription_envelopes 3 4 database ltac:(vm_compute; lia)) eq_refl).
Defined.

(** The C3 counterexample: [count(target: 2147483648)] with as many
    requests as the target gives no envelope stream at all: the document
    is rejected by validation. *)
Lemma count_subscription_envelopes_counterexample :
  execute (mkState schema database) (count_subscription 2147483648)
    (repeat Next (Z.to_nat 2147483648)) =
  (Single (mkResponse JNull ["Int cannot represent non 32-bit signed integer value"]),
   mkState schema database).
Proof. rewrite execute_count. reflexivity. Qed.

(** C6: cancelling [count(target: N)] after [k < N] envelopes: exactly the
    first [k] envelopes are ever emitted, whatever the client requests
    after the cancellation; a target outside the 32-bit range emits no
    envelope at all (validation rejects it). *)
Theorem count_cancel_stops (n : Z) (k : nat) (rest : list command) (db : store)
    (Hk : (Z.of_nat k < n)%Z) :
  execute (mkState schema db) (count_subscription n) (repeat Next k ++ Cancel :: rest) =
    (if int32_ok n then Stream (map count_envelope (zrange (Z.of_nat k)))
     else Single (mkResponse JNull [int32_error]),
     mkState schema db).
Proof.
  rewrite execute_count. destruct (int32_ok n) eqn:Hr; [|reflexivity].
  apply int32_ok_iff in Hr.
  unfold count. change 0%Z with (Z.of_nat 0).
  rewrite drive_nexts by lia. cbn [drive aclose]. rewrite drive_finished.
  rewrite app_nil_r, zrange_seq. reflexivity.
Qed.

Lemma count_cancel_stops_witness :
  (Z.of_nat 2 < 5)%Z /\
  execute (mkState schema database) (count_subscription 5)
    (repeat Next 2 ++ [Cancel; Next; Next; Next])%list =
    (Stream [count_envelope 0; count_envelope 1], mkState schema database).
Proof.
  split; [lia|].
  exact (count_cancel_stops 5 2 [Next; Next; Next] database ltac:(lia)).
Defined.

(** C9 (corrected): [count(target)] with [-2^31 <= target <= 0] is the
    empty event sequence: the generator finishes on its first request and
    no envelope is sent.  A target below [-2^31] is not a GraphQL [Int]:
    the request fails validation with one error envelope. *)
Theorem count_nonpositive_target (n : Z) (cmds : list command) (db : store)
    (Hn : (n <= 0)%Z) :
  anext (count n) = (None, GenFinished) /\
  ((-2147483648 <= n)%Z ->
   execute (mkState schema db) (count_subscription n) cmds = (Stream [], mkState schema db)) /\
  ((n < -2147483648)%Z ->
   execute (mkState schema db) (count_subscription n) cmds =
     (Single (mkResponse JNull [int32_error]), mkState schema db)).
Proof.
  split; [|split].
  - unfold count, anext. replace (0 <? n)%Z with false by (symmetry; apply Z.ltb_ge; lia).
    reflexivity.
  - intro Hlo. rewrite execute_count.
    replace (int32_ok n) with true by (symmetry; apply int32_ok_iff; lia).
    unfold count. rewrite drive_exhausted by lia. reflexivity.
  - intro Hlo. rewrite execute_count.
    replace (int32_ok n) with false.
    + reflexivity.
    + symmetry. apply Bool.not_true_iff_false. rewrite int32_ok_iff. lia.
Qed.

Lemma count_nonpositive_target_witness :
  (-2 <= 0)%Z /\
  execute (mkState schema database) (count_subscription (-2)) [Next; Next; Cancel; Next] =
    (Stream [], mkState schema database).
Proof.
  split; [lia|].
  exact (proj1 (proj2 (count_nonpositive_target (-2) [Next; Next; Cancel; Next] database
                         ltac:(lia))) ltac:(lia)).
Defined.

(** The C9 counterexample: [count(target: -2147483649)] fails instead of
    producing the empty sequence. *)
Lemma count_nonpositive_target_counterexample :
  execute (mkState schema database) (count_subscription (-2147483649)) [Next] =
  (Single (mkResponse JNull ["Int cannot represent non 32-bit signed integer value"]),
   mkState schema database).
Proof. reflexivity. Qed.

(** ** The read path *)

Lemma call_resolver_ro r parent args db v db' :
  resolver_ro r = true -> call_resolver r parent args db = Some (v, db') -> db' = db.
Proof.
  intros Hr Hc. destruct r; cbn in Hr, Hc; try discriminate.
  - congruence.
  - congruence.
  - destruct (getattr parent attr); cbn in Hc; congruence.
Qed.

Lemma thread_pure {A B : Type} (f : A -> store -> option B * list string * store) (l : list A) :
  Forall (fun x => forall d, snd (f x d) = d) l ->
  forall db, snd (thread f l db) = db.
Proof.
  induction 1 as [|x xs Hx _ IH]; intro db; [reflexivity|].
  rewrite thread_cons. specialize (Hx db).
  destruct (f x db) as [[[b|] e1] db1]; cbn [snd] in Hx; subst db1; [|reflexivity].
  specialize (IH db). destruct (thread f xs db) as [[bs e2] db2]. exact IH.
Qed.

Lemma complete_pure (ro : list string)
    (obj : string -> value -> store -> option (list (string * json)) * list string * store)
    (Hobj : forall tn v d, In tn ro -> snd (obj tn v d) = d) (t : gql_type) :
  type_in ro t = true -> forall v db, snd (complete obj t v db) = db.
Proof.
  induction t as [| |tn|t IH|t IH]; intros Ht v db.
  - destruct v; reflexivity.
  - destruct v; try reflexivity. cbn -[int32_ok]. destruct (int32_ok z); reflexivity.
  - destruct v; try reflexivity; rewrite complete_obj by discriminate;
      cbn in Ht; apply existsb_exists in Ht as [x [Hx Heq]];
      apply String.eqb_eq in Heq; subst x;
      match goal with |- context [obj tn ?w db] =>
        specialize (Hobj tn w db Hx); destruct (obj tn w db) as [[kvs e] d]; exact Hobj end.
  - destruct v as [| | | |vs]; try reflexivity.
    rewrite complete_list.
    match goal with |- context [thread ?g vs db] =>
      assert (Hth : snd (thread g vs db) = db);
      [ apply thread_pure; apply Forall_forall; intros x _ d;
        specialize (IH Ht x d); destruct (complete obj t x d) as [[r e] d']; exact IH
      | destruct (thread g vs db) as [[js e] d]; exact Hth ] end.
  - rewrite complete_nonnull. specialize (IH Ht v db).
    destruct (complete obj t v db) as [[[[]|] e] d]; exact IH.
Qed.

(** Executing a field of a type of [ro] leaves the store unchanged when no
    type of [ro] binds [add_book] and [ro] is closed under field types. *)
Lemma exec_field_pure (reg : schema_registry) (ro : list string)
    (Hro : forallb (read_only_type reg ro) ro = true) (s : selection) :
  forall tn parent db, In tn ro -> snd (exec_field reg s tn parent db) = db.
Proof.
  induction s as [alias name args sub Hsub] using selection_ind'.
  intros tn parent db Htn. rewrite exec_field_eq.
  destruct (lookup_field reg tn name) as [fd|] eqn:Hl; [|reflexivity].
  unfold lookup_field in Hl. destruct (lookup_type reg tn) as [td|] eqn:Ht; [|discriminate].
  apply find_some in Hl as [Hin _].
  rewrite forallb_forall in Hro. specialize (Hro tn Htn).
  unfold read_only_type in Hro. rewrite Ht, forallb_forall in Hro.
  apply Hro, andb_prop in Hin as [Hr Hty].
  destruct (call_resolver (fd_resolver fd) parent args db) as [[v db1]|] eqn:Hc;
    [|reflexivity].
  apply call_resolver_ro in Hc; [|exact Hr]. subst db1.
  assert (Hobj : forall tn' v' d, In tn' ro ->
            snd (thread (fun s' => exec_field reg s' tn' v') sub d) = d).
  { intros tn' v' d Htn'. apply thread_pure.
    eapply Forall_impl; [|exact Hsub]. intros s' Hs' d'. apply Hs'. exact Htn'. }
  pose proof (complete_pure ro _ Hobj (fd_type fd) Hty v db) as Hcomp.
  destruct (complete _ (fd_type fd) v db) as [[j e] db2]. exact Hcomp.
Qed.

Lemma schema_read_only : forallb (read_only_type schema ["Query"; "Book"]) ["Query"; "Book"] = true.
Proof. reflexivity. Qed.

Lemma execute_query_state (db : store) (sels : list selection) :
  snd (execute (mkState schema db) (mkOperation OQuery sels) []) = mkState schema db.
Proof.
  unfold execute. cbn [registry].
  destruct (validate schema (mkOperation OQuery sels)); [|reflexivity].
  unfold run_operation, exec_selections. cbn [op_type selections registry db_of].
  assert (H : snd (thread (fun s => exec_field schema s "Query" VNone)
                     (normalize_selections sels) db) = db).
  { apply thread_pure. apply Forall_forall. intros s _ d.
    apply (exec_field_pure schema ["Query"; "Book"] schema_read_only). left. reflexivity. }
  destruct (thread _ _ db) as [[kvs e] db']. cbn in H |- *. subst db'. reflexivity.
Qed.

(** C10: a query (the [books] query among them) never changes the store:
    after any number of queries the state is the one before, and a second
    query with no mutation in between returns the same result. *)
Theorem query_read_only (db : store) (sels : list selection) (n : nat) :
  snd (execute (mkState schema db) (mkOperation OQuery sels) []) = mkState schema db /\
  Nat.iter n (fun st => snd (execute st (mkOperation OQuery sels) [])) (mkState schema db) =
    mkState schema db /\
  fst (execute (snd (execute (mkState schema db) (mkOperation OQuery sels) []))
         (mkOperation OQuery sels) []) =
    fst (execute (mkState schema db) (mkOperation OQuery sels) []).
Proof.
  split; [|split].
  - apply execute_query_state.
  - induction n as [|n IH]; [reflexivity|].
    rewrite Nat.iter_succ, IH. apply execute_query_state.
  - rewrite execute_query_state. reflexivity.
Qed.

(** ** Further properties of the program *)

(** The store only grows at its end: no resolver removes or reorders books. *)
Lemma call_resolver_appends r parent args db v db' :
  call_resolver r parent args db = Some (v, db') -> exists extra, db' = (db ++ extra)%list.
Proof.
  intro Hc. destruct r; cbn in Hc.
  - exists []. rewrite app_nil_r. congruence.
  - destruct (lookup_arg args "title") as [[t|]|], (lookup_arg args "author") as [[a|]|];
      try discriminate.
    exists [mkBook t a]. congruence.
  - exists []. rewrite app_nil_r. congruence.
  - destruct (getattr parent attr); cbn in Hc; [|discriminate].
    exists []. rewrite app_nil_r. congruence.
Qed.

Lemma thread_appends {A B : Type} (f : A -> store -> option B * list string * store) (l : list A) :
  Forall (fun x => forall d, exists extra, snd (f x d) = (d ++ extra)%list) l ->
  forall db, exists extra, snd (thread f l db) = (db ++ extra)%list.
Proof.
  induction 1 as [|x xs Hx _ IH]; intro db; [exists []; symmetry; apply app_nil_r|].
  rewrite thread_cons. destruct (Hx db) as [e1 He1].
  destruct (f x db) as [[[b|] es1] db1]; cbn [snd] in He1; subst db1; [|exists e1; reflexivity].
  destruct (IH (db ++ e1)%list) as [e2 He2].
  destruct (thread f xs (db ++ e1)%list) as [[bs es2] db2]. cbn [snd] in He2 |- *.
  exists (e1 ++ e2)%list. rewrite He2, app_assoc. reflexivity.
Qed.

Lemma complete_appends
    (obj : string -> value -> store -> option (list (string * json)) * list string * store)
    (Hobj : forall tn v d, exists extra, snd (obj tn v d) = (d ++ extra)%list) (t : gql_type) :
  forall v db, exists extra, snd (complete obj t v db) = (db ++ extra)%list.
Proof.
  assert (Hnil : forall db : store, db = (db ++ [])%list) by (intro; symmetry; apply app_nil_r).
  induction t as [| |tn|t IH|t IH]; intros v db.
  - destruct v; exists []; apply Hnil.
  - destruct v; try (exists []; apply Hnil).
    cbn -[int32_ok]. destruct (int32_ok z); exists []; apply Hnil.
  - destruct v; try (exists []; apply Hnil); rewrite complete_obj by discriminate;
      match goal with |- context [obj tn ?w db] =>
        destruct (Hobj tn w db) as [e He]; destruct (obj tn w db) as [[kvs es] d];
        exists e; exact He end.
  - destruct v as [| | | |vs]; try (exists []; apply Hnil).
    rewrite complete_list.
    match goal with |- context [thread ?g vs db] =>
      assert (Hth : exists e, snd (thread g vs db) = (db ++ e)%list);
      [ apply thread_appends; apply Forall_forall; intros x _ d;
        destruct (IH x d) as [e He]; destruct (complete obj t x d) as [[r es] d'];
        exists e; exact He
      | destruct Hth as [e He]; destruct (thread g vs db) as [[js es] d]; exists e; exact He ] end.
  - rewrite complete_nonnull. destruct (IH v db) as [e He].
    destruct (complete obj t v db) as [[[[]|] es] d]; exists e; exact He.
Qed.

Lemma exec_field_appends (reg : schema_registry) (s : selection) :
  forall tn parent db, exists extra, snd (exec_field reg s tn parent db) = (db ++ extra)%list.
Proof.
  induction s as [alias name args sub Hsub] using selection_ind'.
  intros tn parent db. rewrite exec_field_eq.
  destruct (lookup_field reg tn name) as [fd|];
    [|exists []; symmetry; apply app_nil_r].
  destruct (call_resolver (fd_resolver fd) parent args db) as [[v db1]|] eqn:Hc;
    [|exists []; symmetry; apply app_nil_r].
  apply call_resolver_appends in Hc as [e1 He1]. subst db1.
  assert (Hobj : forall tn' v' d, exists e,
            snd (thread (fun s' => exec_field reg s' tn' v') sub d) = (d ++ e)%list).
  { intros tn' v' d. apply thread_appends.
    eapply Forall_impl; [|exact Hsub]. intros s' Hs' d'. apply Hs'. }
  destruct (complete_appends _ Hobj (fd_type fd) v (db ++ e1)%list) as [e2 He2].
  destruct (complete _ (fd_type fd) v (db ++ e1)%list) as [[j es] db2].
  cbn [snd] in He2 |- *. exists (e1 ++ e2)%list. rewrite He2, app_assoc. reflexivity.
Qed.

Lemma exec_selections_appends reg tn parent sels db :
  exists extra, snd (exec_selections reg tn parent sels db) = (db ++ extra)%list.
Proof.
  apply thread_appends. apply Forall_forall. intros s _ d. apply exec_field_appends.
Qed.

Lemma drive_appends reg sels cmds :
  forall g db, exists extra, snd (drive reg sels cmds g db) = (db ++ extra)%list.
Proof.
  induction cmds as [|[|] cs IH]; intros g db; cbn [drive].
  - exists []. symmetry. apply app_nil_r.
  - destruct (anext g) as [[ev|] g'].
    + destruct (exec_selections_appends reg "Subscription" (VInt ev) sels db) as [e1 He1].
      destruct (exec_selections reg "Subscription" (VInt ev) sels db) as [[kvs es] db1].
      cbn [snd] in He1. subst db1.
      destruct (IH g' (db ++ e1)%list) as [e2 He2].
      destruct (drive reg sels cs g' (db ++ e1)%list) as [rs db2]. cbn [snd] in He2 |- *.
      exists (e1 ++ e2)%list. rewrite He2, app_assoc. reflexivity.
    + apply IH.
  - apply IH.
Qed.

Lemma run_operation_appends (st : server_state) (op : operation) (cmds : list command) :
  exists extra, db_of (snd (run_operation st op cmds)) = (db_of st ++ extra)%list.
Proof.
  destruct st as [reg db]. destruct op as [[| |] sels]; unfold run_operation;
    cbn [op_type selections registry db_of].
  - destruct (exec_selections_appends reg "Query" VNone sels db) as [e He].
    destruct (exec_selections _ _ _ _ _) as [[kvs es] db']. exists e. exact He.
  - destruct (exec_selections_appends reg "Mutation" VNone sels db) as [e He].
    destruct (exec_selections _ _ _ _ _) as [[kvs es] db']. exists e. exact He.
  - destruct sels as [|[al name args sub] [|s2 ss]];
      try (exists []; symmetry; apply app_nil_r).
    destruct (lookup_field _ _ _) as [fd|]; [|exists []; symmetry; apply app_nil_r].
    destruct (source_stream _ _) as [g|]; [|exists []; symmetry; apply app_nil_r].
    destruct (drive_appends reg [Field al name args sub] cmds g db) as [e He].
    destruct (drive _ _ _ _ _) as [rs db']. exists e. exact He.
Qed.

Lemma execute_appends (st : server_state) (op : operation) (cmds : list command) :
  exists extra, db_of (snd (execute st op cmds)) = (db_of st ++ extra)%list.
Proof.
  unfold execute. destruct (validate (registry st) op).
  - apply run_operation_appends.
  - exists []. symmetry. apply app_nil_r.
Qed.

(** X1: over any sequence of requests the store is append-only: the store
    each request starts from, and the store at the end, begin with the
    books of the initial store, in the same order. *)
Theorem store_append_only (st : server_state) (reqs : list (operation * list command)) :
  Forall (fun p => exists extra, db_of (fst p) = (db_of st ++ extra)%list)
    (fst (run_requests st reqs)) /\
  exists extra, db_of (snd (run_requests st reqs)) = (db_of st ++ extra)%list.
Proof.
  revert st. induction reqs as [|[op cmds] rest IH]; intro st; cbn [run_requests].
  - split; [constructor|]. exists []. symmetry. apply app_nil_r.
  - destruct (execute_appends st op cmds) as [e1 He1].
    destruct (execute st op cmds) as [o st1]. cbn [snd] in He1.
    destruct (IH st1) as [Htr [e2 He2]].
    destruct (run_requests st1 rest) as [tr st2]. cbn [fst snd] in *.
    split.
    + constructor; [exists []; symmetry; apply app_nil_r|].
      eapply Forall_impl; [|exact Htr]. intros p [e Hp].
      exists (e1 ++ e)%list. rewrite Hp, He1, app_assoc. reflexivity.
    + exists (e1 ++ e2)%list. rewrite He2, He1, app_assoc. reflexivity.
Qed.

(** X2: a mutation made of one or more [addBook] root fields with distinct
    response keys appends their books to the store in document order and
    returns each one under its key, with no error. *)
Theorem mutation_add_books (fs : list (option string * string * string)) (db : store)
    (Hne : fs <> []) (Hkeys : NoDup (map entry_key fs)) :
  execute (mkState schema db) (mkOperation OMutation (map add_book_entry fs)) [] =
    (Single (mkResponse (JObj (map entry_result fs)) []),
     mkState schema (db ++ map entry_book fs)%list).
Proof. exact (execute_add_books fs db Hne Hkeys). Qed.

Lemma mutation_add_books_witness :
  [(None, "A", "x"); (Some "b", "B", "y"); (Some "c", "C", "z")] <> [] /\
  NoDup (map entry_key [(None, "A", "x"); (Some "b", "B", "y"); (Some "c", "C", "z")]) /\
  execute (mkState schema database)
    (mkOperation OMutation (map add_book_entry [(None, "A", "x"); (Some "b", "B", "y"); (Some "c", "C", "z")])) [] =
    (Single (mkResponse (JObj [("addBook", book_json (mkBook "A" "x"));
                               ("b", book_json (mkBook "B" "y"));
                               ("c", book_json (mkBook "C" "z"))]) []),
     mkState schema (database ++ [mkBook "A" "x"; mkBook "B" "y"; mkBook "C" "z"])%list).
Proof.
  assert (Hne : [(None, "A", "x"); (Some "b", "B", "y"); (Some "c", "C", "z")] <> [])
    by discriminate.
  assert (Hnd : NoDup (map entry_key [(None, "A", "x"); (Some "b", "B", "y"); (Some "c", "C", "z")])).
  { cbn. repeat constructor; cbn; intuition discriminate. }
  split; [exact Hne|]. split; [exact Hnd|].
  exact (mutation_add_books _ database Hne Hnd).
Defined.

Lemma drive_pure reg sels
    (Hpass : forall ev d, snd (exec_selections reg "Subscription" (VInt ev) sels d) = d)
    (cmds : list command) :
  forall g db, snd (drive reg sels cmds g db) = db.
Proof.
  induction cmds as [|[|] cs IH]; intros g db; cbn [drive]; [reflexivity| |apply IH].
  destruct (anext g) as [[ev|] g']; [|apply IH].
  specialize (Hpass ev db).
  destruct (exec_selections reg "Subscription" (VInt ev) sels db) as [[kvs es] db1].
  cbn [snd] in Hpass. subst db1.
  specialize (IH g' db). destruct (drive reg sels cs g' db) as [rs db2]. exact IH.
Qed.

Lemma schema_subscription_read_only :
  forallb (read_only_type schema ["Subscription"]) ["Subscription"] = true.
Proof. reflexivity. Qed.

(** X3: no subscription document changes the store, whatever the client
    requests or cancels: the [count] resolver only reads its argument. *)
Theorem subscription_keeps_store (sels : list selection) (cmds : list command) (db : store) :
  snd (execute (mkState schema db) (mkOperation OSubscription sels) cmds) = mkState schema db.
Proof.
  unfold execute. cbn [registry].
  destruct (validate schema (mkOperation OSubscription sels)); [|reflexivity].
  unfold run_operation. cbn [op_type selections registry db_of].
  destruct (normalize_selections sels) as [|[al name args sub] [|s2 ss]]; try reflexivity.
  destruct (lookup_field _ _ _) as [fd|]; [|reflexivity].
  destruct (source_stream _ _) as [g|]; [|reflexivity].
  assert (H : snd (drive schema [Field al name args sub] cmds g db) = db).
  { apply drive_pure. intros ev d. apply thread_pure. apply Forall_forall. intros s _ d'.
    apply (exec_field_pure schema ["Subscription"] schema_subscription_read_only).
    left. reflexivity. }
  destruct (drive _ _ _ _ _) as [rs db']. cbn in H |- *. subst db'. reflexivity.
Qed.

Lemma drive_count_any (n : Z) (Hn : (n <= 2147483648)%Z) (cmds : list command) :
  forall i db, exists k,
    fst (drive schema (selections (count_subscription n)) cmds (GenRunning (Z.of_nat i) n) db) =
      map (fun j => count_envelope (Z.of_nat j)) (seq i k) /\
    (k = 0%nat \/ (Z.of_nat (i + k) <= n)%Z) /\
    (k <= length (filter is_next cmds))%nat.
Proof.
  induction cmds as [|[|] cs IH]; intros i db.
  - exists 0%nat. split; [reflexivity|]. split; [left; reflexivity|]. cbn. lia.
  - cbn [drive anext]. destruct (Z.ltb_spec (Z.of_nat i) n) as [Hi|Hi].
    + rewrite count_pass by (apply int32_ok_iff; lia). cbv beta iota.
      replace (Z.of_nat i + 1)%Z with (Z.of_nat (S i)) by lia.
      destruct (IH (S i) db) as [k [Hk [Hb Hc]]].
      destruct (drive schema _ cs (GenRunning (Z.of_nat (S i)) n) db) as [rs db2].
      cbn [fst] in Hk |- *. exists (S k). split.
      * rewrite Hk. reflexivity.
      * split; [right; lia|]. cbn [filter is_next length]. lia.
    + rewrite drive_finished. exists 0%nat.
      split; [reflexivity|]. split; [left; reflexivity|]. lia.
  - cbn [drive aclose]. rewrite drive_finished. exists 0%nat.
    split; [reflexivity|]. split; [left; reflexivity|]. lia.
Qed.

(** X4: whatever the client requests and whenever it cancels, the
    envelopes of [count(target)] for a target in the 32-bit range are the
    first [k] values [0, 1, ..., k-1] for some [k]: never out of order,
    never repeated, no more than [target] and no more than the number of
    requests; a target outside the range gets one error envelope. *)
Theorem count_envelopes_prefix (n : Z) (cmds : list command) (db : store) :
  (int32_ok n = true ->
   exists k,
     fst (execute (mkState schema db) (count_subscription n) cmds) =
       Stream (map count_envelope (zrange (Z.of_nat k))) /\
     (Z.of_nat k <= Z.max n 0)%Z /\
     (k <= length (filter is_next cmds))%nat) /\
  (int32_ok n = false ->
   fst (execute (mkState schema db) (count_subscription n) cmds) =
     Single (mkResponse JNull [int32_error])).
Proof.
  split; intro Hr; rewrite execute_count, Hr; [|reflexivity].
  apply int32_ok_iff in Hr.
  unfold count. change 0%Z with (Z.of_nat 0).
  destruct (drive_count_any n ltac:(lia) cmds 0 db) as [k [Hk [Hb Hn]]].
  destruct (drive schema _ cmds (GenRunning (Z.of_nat 0) n) db) as [rs db'].
  cbn [fst] in Hk |- *. exists k. split; [|split; [|exact Hn]].
  - rewrite Hk, zrange_seq. reflexivity.
  - destruct Hb as [-> | Hb]; lia.
Qed.

Lemma count_envelopes_prefix_witness :
  (exists k,
     fst (execute (mkState schema database) (count_subscription 4) [Next; Next; Cancel; Next]) =
       Stream (map count_envelope (zrange (Z.of_nat k))) /\
     (Z.of_nat k <= Z.max 4 0)%Z /\
     (k <= length (filter is_next [Next; Next; Cancel; Next]))%nat) /\
  fst (execute (mkState schema database) (count_subscription (-2147483649)) [Next]) =
    Single (mkResponse JNull [int32_error]).
Proof.
  split.
  - exact (proj1 (count_envelopes_prefix 4 [Next; Next; Cancel; Next] database) eq_refl).
  - exact (proj2 (count_envelopes_prefix (-2147483649) [Next] database) eq_refl).
Defined.

Lemma normalize_single (al : option string) (name : string) (args : list (string * arg_value))
    (sub : list selection) :
  normalize_selections [Field al name args sub] =
  [Field al name args (normalize (list_max (map depth sub)) sub)].
Proof. reflexivity. Qed.

(** X5: an [addBook] field whose [title] or [author] argument is missing
    or not a string appends nothing: the store is unchanged and the
    response reports an error. *)
Theorem add_book_bad_args (key : option string) (args : list (string * arg_value))
    (sub : list selection) (db : store)
    (Hbad : forall t a, ~ (lookup_arg args "title" = Some (AStr t) /\
                           lookup_arg args "author" = Some (AStr a))) :
  exists r,
    execute (mkState schema db) (mkOperation OMutation [Field key "addBook" args sub]) [] =
      (Single r, mkState schema db) /\ errors r <> [].
Proof.
  unfold execute. cbn [registry].
  destruct (validate schema (mkOperation OMutation [Field key "addBook" args sub]))
    as [|err errs]; [|eexists; split; [reflexivity|discriminate]].
  cbn [op_type selections]. rewrite normalize_single.
  unfold run_operation, exec_selections. cbn [op_type selections registry db_of].
  rewrite thread_cons, exec_field_eq.
  replace (lookup_field schema "Mutation" "addBook")
    with (Some (mkField "addBook" (TNonNull (TObj "Book"))
                  [("title", TNonNull TString); ("author", TNonNull TString)] RAddBook))
    by reflexivity.
  cbn [fd_resolver call_resolver].
  destruct (lookup_arg args "title") as [[t|]|] eqn:Ht,
           (lookup_arg args "author") as [[a|]|] eqn:Ha;
    try (exfalso; exact (Hbad t a (conj eq_refl eq_refl)));
    eexists; (split; [reflexivity|discriminate]).
Qed.

Lemma add_book_bad_args_witness :
  (forall t a, ~ (lookup_arg [("title", AStr "Dune"); ("author", AInt 7)] "title" = Some (AStr t) /\
                  lookup_arg [("title", AStr "Dune"); ("author", AInt 7)] "author" = Some (AStr a))) /\
  exists r,
    execute (mkState schema database)
      (mkOperation OMutation [Field None "addBook" [("title", AStr "Dune"); ("author", AInt 7)] []]) [] =
      (Single r, mkState schema database) /\ errors r <> [].
Proof.
  assert (Hbad : forall t a,
            ~ (lookup_arg [("title", AStr "Dune"); ("author", AInt 7)] "title" = Some (AStr t) /\
               lookup_arg [("title", AStr "Dune"); ("author", AInt 7)] "author" = Some (AStr a))).
  { intros t a [_ H]. discriminate H. }
  split; [exact Hbad|].
  exact (add_book_bad_args None [("title", AStr "Dune"); ("author", AInt 7)] [] database Hbad).
Defined.

(** X6: for any title, author and store, a [books] query after
    [addBook(title, author)] lists the old books in order followed by the
    new one. *)
Theorem books_after_add_book (t a : string) (db : store) :
  fst (execute (snd (execute (mkState schema db) (add_book_mutation t a) [])) books_query []) =
    Single (mkResponse (JObj [("books", JList (map book_json db ++ [book_json (mkBook t a)]))]) []).
Proof.
  rewrite execute_add_book. cbn [snd]. rewrite execute_books_query, map_app. reflexivity.
Qed.

(** X7: serving a series of separate [addBook(title, author)] requests,
    one after another, leaves the store extended with their books in
    request order, each request answering with its own book. *)
Theorem add_book_requests (fs : list (string * string)) (db : store) :
  snd (run_requests (mkState schema db)
         (map (fun p => (add_book_mutation (fst p) (snd p), @nil command)) fs)) =
    mkState schema (db ++ map (fun p => mkBook (fst p) (snd p)) fs)%list /\
  map snd (fst (run_requests (mkState schema db)
                  (map (fun p => (add_book_mutation (fst p) (snd p), @nil command)) fs))) =
    map (fun p => Single (mkResponse
                    (JObj [("addBook", book_json (mkBook (fst p) (snd p)))]) [])) fs.
Proof.
  revert db. induction fs as [|[t a] fs IH]; intro db.
  - cbn. rewrite app_nil_r. split; reflexivity.
  - cbn [map run_requests fst snd]. rewrite execute_add_book. cbv beta iota.
    destruct (IH (db ++ [mkBook t a])%list) as [Hst Hout].
    destruct (run_requests _ _) as [tr st2]. cbn [fst snd map] in *.
    rewrite Hst, Hout, <- app_assoc. split; reflexivity.
Qed.
